(** * iris-jwt: claims validation, claims merging and the RSA algorithm

    A shallow embedding of [claims.go] and [rsa.go] of the [jwt] package,
    and of the map comparison of [token_test.go], with the properties of
    the package's specification stated and proved over it.

    Layout: the Go values the package manipulates (byte slices, errors,
    [time.Time]), then the package's functions, then the theorems. *)

From Stdlib Require Import ZArith List Bool Lia String.
From Stdlib Require Import Strings.Byte.
From Stdlib Require Import Permutation.
From Stdlib Require PrimFloat.
Import ListNotations.

Local Open Scope string_scope.
Local Open Scope list_scope.
Local Open Scope Z_scope.

(** ** Go values *)

(** A Go [[]byte].  The [nil] slice and an empty, non-nil slice are
    different values ([Merge] returns the former on failure), so a slice is
    an optional list: [None] is [nil]. *)
Definition slice : Type := option (list byte).

Definition len (s : slice) : Z :=
  match s with
  | None => 0
  | Some l => Z.of_nat (List.length l)
  end.

(** What a call does: it returns a value or it panics (a slice expression
    out of range, a nil pointer dereference). *)
Inductive outcome (A : Type) : Type :=
| Returns (a : A)
| Panics.
Arguments Returns {A} a.
Arguments Panics {A}.

(** The package's sentinel errors ([claims.go], lines 8-15, and
    [ErrInvalidKey], which [rsa.go] uses and another file of the package
    declares), and whatever error a library call hands back. *)
Inductive error : Type :=
| ErrExpired
| ErrNotValidYet
| ErrIssuedInTheFuture
| ErrInvalidKey
| ErrLib (msg : string).

(** A Go [error] value: [None] is [nil]. *)
Definition goerror : Type := option error.

(** ** [time.Time] and [time.Duration]

    Only what [validateClaims] calls: [Round] and [Unix].  A time is its
    Unix seconds and the nanoseconds within that second; integers are
    unbounded here, so the saturation of [Add] at the ends of the
    representable range is outside the model. *)
Module GoTime.

Definition Duration : Type := Z.

Definition Second : Duration := 1000000000.

Record Time : Type := mkTime { sec : Z; nsec : Z }.

(** [time.Unix(sec, 0)]: the instant on a whole second. *)
Definition at_second (s : Z) : Time := mkTime s 0.

(** The invariant of a [Time]: [0 <= nsec < 1e9]. *)
Definition wf (t : Time) : Prop := 0 <= nsec t < Second.

(** Seconds from January 1, year 1 (the zero [Time]) to the Unix epoch. *)
Definition unixToInternal : Z := 62135596800.

(** [t.Add(d)]: seconds and nanoseconds are added separately and the
    nanoseconds carried back into range; [/] and [%] truncate. *)
Definition Add (t : Time) (d : Duration) : Time :=
  let dsec := Z.quot d 1000000000 in
  let ns := nsec t + Z.rem d 1000000000 in
  if 1000000000 <=? ns then mkTime (sec t + (dsec + 1)) (ns - 1000000000)
  else if ns <? 0 then mkTime (sec t + (dsec - 1)) (ns + 1000000000)
  else mkTime (sec t + dsec) ns.

(** [div(t, d)]: the remainder of [t], counted in nanoseconds since the
    zero [Time], modulo [d]; never negative. *)
Definition div (t : Time) (d : Duration) : Duration :=
  ((sec t + unixToInternal) * 1000000000 + nsec t) mod d.

(** [lessThanHalf(x, y)]: [x+x < y]. *)
Definition lessThanHalf (x y : Duration) : bool := x + x <? y.

(** [t.Round(d)]: the nearest multiple of [d] since the zero [Time],
    halfway values rounded up; [t] itself when [d <= 0]. *)
Definition Round (t : Time) (d : Duration) : Time :=
  if d <=? 0 then t
  else
    let r := div t d in
    if lessThanHalf r d then Add t (- r) else Add t (d - r).

(** [t.Truncate(d)]: rounding down.  [validateClaims] does not call it;
    it is here to compare with. *)
Definition Truncate (t : Time) (d : Duration) : Time :=
  if d <=? 0 then t else Add t (- div t d).

(** [t.Unix()]. *)
Definition Unix (t : Time) : Z := sec t.

End GoTime.
Import GoTime.

(** ** [claims.go] *)

(** [type Claims struct], lines 18-55.  The three dates are [int64]; the
    validator only compares them, so they are integers without wrap-around. *)
Record Claims : Type := mkClaims {
  NotBefore : Z;
  IssuedAt : Z;
  Expiry : Z;
  ID : string;
  Issuer : string;
  Subject : string;
  Audience : list string
}.

(** Statements that may return early: [ret_if e ;; k] returns the error
    of [e] when there is one and goes on with [k] otherwise. *)
Definition first_error (e : goerror) (k : goerror) : goerror :=
  match e with
  | Some x => Some x
  | None => k
  end.
Notation "'ret_if' e ';;' k" := (first_error e k)
  (at level 10, e at level 100, k at level 200,
   format "'[v' 'ret_if'  e  ';;' '/' k ']'").

(** [validateClaims], lines 57-79. *)
Definition validateClaims (t : Time) (claims : Claims) : goerror :=
  let now := Unix (Round t Second) in
  ret_if (if 0 <? NotBefore claims then
            if now <? NotBefore claims then Some ErrNotValidYet else None
          else None) ;;
  ret_if (if 0 <? IssuedAt claims then
            if now <? IssuedAt claims then Some ErrIssuedInTheFuture else None
          else None) ;;
  ret_if (if 0 <? Expiry claims then
            if Expiry claims <? now then Some ErrExpired else None
          else None) ;;
  None.

(** *** Slices *)

(** [s[lo:hi]].  It panics unless [0 <= lo <= hi <= cap(s)]; capacities are
    not modelled, and both uses in [Merge] have [hi <= len(s)], so the bound
    here is the length. *)
Definition subslice (s : slice) (lo hi : Z) : outcome slice :=
  if (0 <=? lo) && (lo <=? hi) && (hi <=? len s) then
    match s with
    | None => Returns None
    | Some l =>
        Returns (Some (firstn (Z.to_nat (hi - lo)) (skipn (Z.to_nat lo) l)))
    end
  else Panics.

(** [append(s, elems...)].  Only the returned slice is modelled: that the
    write may land in the array [s] shares is not. *)
Definition append (s : slice) (elems : list byte) : slice :=
  match s, elems with
  | None, [] => None
  | None, _ => Some elems
  | Some l, _ => Some (l ++ elems)
  end.

Definition bind {A B : Type} (o : outcome A) (k : A -> outcome B) : outcome B :=
  match o with
  | Returns a => k a
  | Panics => Panics
  end.
Notation "x <- o ;; k" := (bind o (fun x => k))
  (at level 10, o at level 100, k at level 200).

(** The bytes [Merge] handles by name. *)
Definition lbrace : byte := x7b.
Definition rbrace : byte := x7d.
Definition comma : byte := x2c.

(** *** [Merge], lines 96-117

    [Marshal] is the package's JSON encoder, declared in another file; the
    values it encodes are the [interface{}] arguments.  Both are taken as
    given. *)
Section Merge.

Variable Value : Type.
Variable Marshal : Value -> slice * goerror.

Definition Merge (claims other : Value) : outcome slice :=
  let '(claimsB, err) := Marshal claims in
  match err with
  | Some _ => Returns None
  | None =>
      let '(otherB, err) := Marshal other in
      match err with
      | Some _ => Returns None
      | None =>
          if len otherB =? 0 then Returns claimsB
          else
            claimsB <- subslice claimsB 0 (len claimsB - 1) ;;
            otherB <- subslice otherB 1 (len otherB) ;;
            let raw := append claimsB [comma] in
            let raw := append raw (match otherB with
                                   | Some l => l
                                   | None => []
                                   end) in
            Returns raw
      end
  end.

End Merge.
Arguments Merge {Value} Marshal claims other.

(** Serializing an operand of [Merge] fails with [e]: the first operand's
    encoding does, or it succeeds and the second one's does. *)
Definition marshal_fails {Value : Type} (Marshal : Value -> slice * goerror)
    (claims other : Value) (e : error) : Prop :=
  snd (Marshal claims) = Some e \/
  (snd (Marshal claims) = None /\ snd (Marshal other) = Some e).

(** The caller of [Merge] holds its result and nothing else.  That a failed
    serialization is reported to the caller as an error means that the error
    can be read off the result. *)
Definition Merge_reports_marshal_errors : Prop :=
  exists err_of : outcome slice -> goerror,
    forall (Value : Type) (Marshal : Value -> slice * goerror)
           (claims other : Value) (e : error),
      marshal_fails Marshal claims other e ->
      err_of (Merge Marshal claims other) = Some e.

(** ** [rsa.go] *)

(** [rsa.PublicKey] and [rsa.PrivateKey] of [crypto/rsa]; the private key
    embeds its public key. *)
Record rsa_PublicKey : Type := mkPublicKey { N : Z; E : Z }.

Record rsa_PrivateKey : Type := mkPrivateKey {
  PublicKey : rsa_PublicKey;
  D : Z;
  Primes : list Z
}.

(** The [key interface{}] argument, by its dynamic type.  A pointer may be
    [nil]: [None]. *)
Inductive key : Type :=
| key_nil
| key_rsa_public (p : option rsa_PublicKey)
| key_rsa_private (p : option rsa_PrivateKey)
| key_bytes (secret : slice)
| key_other (type_name : string).

(** What [rsa.go] calls in [crypto], [crypto/rand] and [crypto/rsa]: the
    hash a [crypto.Hash] selects, as a state that is written to and summed,
    and the PKCS #1 v1.5 signature and its check.  The signature functions
    receive the key pointer as it is. *)
Class Crypto : Type := {
  Hash : Type;
  hash_state : Type;
  Rand : Type;
  hash_New : Hash -> outcome hash_state;
  hash_Write : hash_state -> slice -> hash_state * goerror;
  hash_Sum : hash_state -> slice;
  SignPKCS1v15 :
    Rand -> option rsa_PrivateKey -> Hash -> slice -> outcome (slice * goerror);
  VerifyPKCS1v15 :
    option rsa_PublicKey -> Hash -> slice -> slice -> outcome goerror
}.

Section RSA.

Context {C : Crypto}.

(** [type algRSA struct], lines 9-12. *)
Record algRSA : Type := mkAlgRSA { name : string; hasher : Hash }.

(** [Name], lines 14-16. *)
Definition Name (a : algRSA) : string := name a.

(** [Sign], lines 18-33; [rand_Reader] is [rand.Reader]. *)
Definition Sign (a : algRSA) (rand_Reader : Rand)
    (headerAndPayload : slice) (k : key) : outcome (slice * goerror) :=
  match k with
  | key_rsa_private privateKey =>
      h <- hash_New (hasher a) ;;
      let '(h, err) := hash_Write h headerAndPayload in
      match err with
      | Some e => Returns (None, Some e)
      | None =>
          let hashed := hash_Sum h in
          SignPKCS1v15 rand_Reader privateKey (hasher a) hashed
      end
  | _ => Returns (None, Some ErrInvalidKey)
  end.

(** The part of [Verify] after the key is settled, lines 45-53. *)
Definition verify_with (a : algRSA) (headerAndPayload signature : slice)
    (publicKey : option rsa_PublicKey) : outcome goerror :=
  h <- hash_New (hasher a) ;;
  let '(h, err) := hash_Write h headerAndPayload in
  match err with
  | Some e => Returns (Some e)
  | None =>
      let hashed := hash_Sum h in
      VerifyPKCS1v15 publicKey (hasher a) hashed signature
  end.

(** [Verify], lines 35-54.  [&privateKey.PublicKey] dereferences
    [privateKey], so a [nil] pointer panics there. *)
Definition Verify (a : algRSA) (headerAndPayload signature : slice)
    (k : key) : outcome goerror :=
  match k with
  | key_rsa_public publicKey =>
      verify_with a headerAndPayload signature publicKey
  | key_rsa_private (Some privateKey) =>
      verify_with a headerAndPayload signature (Some (PublicKey privateKey))
  | key_rsa_private None => Panics
  | _ => Returns (Some ErrInvalidKey)
  end.

End RSA.

(** ** The validator as a list of rules

    The rules of the specification, one boolean test each, and the reading
    "the first violated rule is reported". *)

Definition not_before_violated (now : Z) (c : Claims) : bool :=
  (0 <? NotBefore c) && (now <? NotBefore c).

Definition issued_at_violated (now : Z) (c : Claims) : bool :=
  (0 <? IssuedAt c) && (now <? IssuedAt c).

Definition expiry_violated (now : Z) (c : Claims) : bool :=
  (0 <? Expiry c) && (Expiry c <? now).

Definition rule : Type := (Z -> Claims -> bool) * error.

Definition temporal_rules : list rule :=
  [ (not_before_violated, ErrNotValidYet);
    (issued_at_violated, ErrIssuedInTheFuture);
    (expiry_violated, ErrExpired) ].

Fixpoint first_violated (rules : list rule) (now : Z) (c : Claims) : goerror :=
  match rules with
  | [] => None
  | (violated, e) :: rest =>
      if violated now c then Some e else first_violated rest now c
  end.

(** The validator with the current time already in whole seconds. *)
Definition validate_at (now : Z) (c : Claims) : goerror :=
  first_violated temporal_rules now c.

(** ** [token_test.go]: [compareMap] *)

(** The [interface{}] values a [map[string]interface{}] of claims holds:
    what the test writes in its literal and what [json.Unmarshal] stores
    ([nil], [bool], [float64], [string], [[]interface{}] and
    [map[string]interface{}]).  A [float64] is a binary64 float. *)
#[local] Set Warnings "-register-all".
Inductive value : Type :=
| v_nil
| v_bool (b : bool)
| v_float64 (f : PrimFloat.float)
| v_string (s : string)
| v_slice (items : list value)
| v_map (entries : list (string * value)).
#[local] Set Warnings "register-all".

(** A [map[string]interface{}]: its entries, in the order [range] visits
    them (an order Go leaves open); no key occurs twice. *)
Definition gomap : Type := list (string * value).

Definition map_keys (m : gomap) : list string := List.map fst m.

Definition map_wf (m : gomap) : Prop := NoDup (map_keys m).

(** [val, ok := m[k]]: [None] when [ok] is false. *)
Fixpoint map_get (m : gomap) (k : string) : option value :=
  match m with
  | [] => None
  | (k', v) :: rest => if String.eqb k k' then Some v else map_get rest k
  end.

(** [v != val] on interface values: values of different dynamic types
    differ; values of one comparable type are compared ([float64] as IEEE
    754 does); two slices, or two maps, make the comparison panic. *)
Definition iface_neq (v val : value) : outcome bool :=
  match v, val with
  | v_nil, v_nil => Returns false
  | v_bool x, v_bool y => Returns (negb (Bool.eqb x y))
  | v_float64 x, v_float64 y => Returns (negb (PrimFloat.eqb x y))
  | v_string x, v_string y => Returns (negb (String.eqb x y))
  | v_slice _, v_slice _ => Panics
  | v_map _, v_map _ => Panics
  | _, _ => Returns true
  end.

(** The loop of [compareMap], lines 67-76, over the entries still to
    visit. *)
Fixpoint compare_entries (entries : gomap) (m2 : gomap) : outcome bool :=
  match entries with
  | [] => Returns true
  | (k, v) :: rest =>
      match map_get m2 k with
      | None => Returns false
      | Some val =>
          differ <- iface_neq v val ;;
          if differ then Returns false else compare_entries rest m2
      end
  end.

(** [compareMap], lines 62-79. *)
Definition compareMap (m1 m2 : gomap) : outcome bool :=
  if negb (Nat.eqb (List.length m1) (List.length m2)) then Returns false
  else compare_entries m1 m2.

(** ** Notions the properties are stated with *)

(** The dynamic type of a value can be compared with [==]. *)
Definition comparable (v : value) : bool :=
  match v with
  | v_slice _ | v_map _ => false
  | _ => true
  end.

(** [v == val] holds and does not panic. *)
Definition go_equal (v val : value) : Prop := iface_neq v val = Returns false.

(** The entry [(k, v)] of one map has an equal in the other. *)
Definition matched (m2 : gomap) (entry : string * value) : Prop :=
  exists val, map_get m2 (fst entry) = Some val /\ go_equal (snd entry) val.

(** Every value of the map is of a comparable dynamic type. *)
Definition all_comparable (m : gomap) : Prop :=
  Forall (fun entry => comparable (snd entry) = true) m.


(** The current time in whole seconds, as [validateClaims] takes it. *)
Definition now_of (t : Time) : Z := Unix (Round t Second).

(** A date of the claims with "not asserted" made explicit: zero stands
    for every value that is not positive. *)
Definition asserted (date : Z) : Z := if 0 <? date then date else 0.

Definition normalize (c : Claims) : Claims :=
  mkClaims (asserted (NotBefore c)) (asserted (IssuedAt c))
    (asserted (Expiry c)) (ID c) (Issuer c) (Subject c) (Audience c).

(** The library's signature check accepts what its signing returns for a
    private key and a digest, under the public key of that private key. *)
Definition primitive_sound {C : Crypto} : Prop :=
  forall (rnd : Rand) (sk : rsa_PrivateKey) (h : Hash) (hashed sig : slice),
    SignPKCS1v15 rnd (Some sk) h hashed = Returns (sig, None) ->
    VerifyPKCS1v15 (Some (PublicKey sk)) h hashed sig = Returns None.

(** ** Sample values

    Concrete claims, times, encoder results and a stand-in for the
    cryptographic library, on which the functions above are evaluated. *)

(** Valid from second 100 and until second 100. *)
Definition claims_window : Claims := mkClaims 100 0 100 "" "" "" [].

(** Valid from second 100, nothing else asserted. *)
Definition claims_nbf100 : Claims := mkClaims 100 0 0 "" "" "" [].

(** Expiring at second 10, nothing else asserted. *)
Definition claims_exp10 : Claims := mkClaims 0 0 10 "" "" "" [].

(** Not before 100, issued at 100, expired at 50: at second 70 all three
    rules are violated. *)
Definition claims_inverted : Claims := mkClaims 100 100 50 "" "" "" [].

(** Issued at 100, expired at 50, no not-before. *)
Definition claims_iat_exp : Claims := mkClaims 0 100 50 "" "" "" [].

(** No date asserted, every other field set. *)
Definition claims_undated : Claims :=
  mkClaims 0 0 0 "id-1" "an-issuer" "a-subject" ["api"; "web"].

(** The same dates as [claims_window], other fields set. *)
Definition claims_window_named : Claims :=
  mkClaims 100 0 100 "id-2" "another-issuer" "b-subject" ["mobile"].

(** Go values handed to [Merge], and what [encoding/json] returns for each:
    a one-entry map, the zero [Claims] (every field is [omitempty]), a
    [Claims] with an issuer, and two values JSON has no encoding for. *)
Inductive sample_value : Type :=
| sample_map
| sample_zero_Claims
| sample_issuer_Claims
| sample_chan
| sample_func.

(** [{"a":1}] *)
Definition json_map : list byte := [x7b; x22; x61; x22; x3a; x31; x7d].
(** [{}] *)
Definition json_empty_object : list byte := [x7b; x7d].
(** [{"iss":"x"}] *)
Definition json_issuer : list byte :=
  [x7b; x22; x69; x73; x73; x22; x3a; x22; x78; x22; x7d].
(** [{"a":1,}] *)
Definition json_map_dangling : list byte :=
  [x7b; x22; x61; x22; x3a; x31; x2c; x7d].
(** [{"a":1,"iss":"x"}] *)
Definition json_map_issuer : list byte :=
  [x7b; x22; x61; x22; x3a; x31; x2c;
   x22; x69; x73; x73; x22; x3a; x22; x78; x22; x7d].

Definition sample_Marshal (v : sample_value) : slice * goerror :=
  match v with
  | sample_map => (Some json_map, None)
  | sample_zero_Claims => (Some json_empty_object, None)
  | sample_issuer_Claims => (Some json_issuer, None)
  | sample_chan => (None, Some (ErrLib "json: unsupported type: chan int"))
  | sample_func => (None, Some (ErrLib "json: unsupported type: func()"))
  end.

(** An encoder given by its result: the value is what [Marshal] returns. *)
Definition table_Marshal (v : slice * goerror) : slice * goerror := v.

(** A stand-in for the library: the "hash" is the text written, a
    "signature" is the digest followed by one byte of the modulus. *)
Definition key_byte (pk : rsa_PublicKey) : byte :=
  match Byte.of_N (Z.to_N (N pk mod 256)) with
  | Some b => b
  | None => x00
  end.

Definition bytes_of (s : slice) : list byte :=
  match s with
  | Some l => l
  | None => []
  end.

Definition bytes_eqb (a b : list byte) : bool :=
  if list_eq_dec byte_eq_dec a b then true else false.

Definition sample_crypto : Crypto := {|
  Hash := unit;
  hash_state := list byte;
  Rand := unit;
  hash_New := fun _ => Returns [];
  hash_Write := fun h p => (h ++ bytes_of p, None);
  hash_Sum := fun h => Some h;
  SignPKCS1v15 := fun _ sk _ hashed =>
    match sk with
    | None => Panics
    | Some sk => Returns (append hashed [key_byte (PublicKey sk)], None)
    end;
  VerifyPKCS1v15 := fun pk _ hashed sig =>
    match pk with
    | None => Panics
    | Some pk =>
        if bytes_eqb (bytes_of (append hashed [key_byte pk])) (bytes_of sig)
        then Returns None
        else Returns (Some (ErrLib "crypto/rsa: verification error"))
    end
|}.

(** A library whose hash refuses every write. *)
Definition failing_hash_crypto : Crypto := {|
  Hash := unit;
  hash_state := unit;
  Rand := unit;
  hash_New := fun _ => Returns tt;
  hash_Write := fun h _ => (h, Some (ErrLib "hash: write failed"));
  hash_Sum := fun _ => None;
  SignPKCS1v15 := fun _ _ _ _ => Returns (None, None);
  VerifyPKCS1v15 := fun _ _ _ _ => Returns None
|}.

Definition sample_private : rsa_PrivateKey :=
  mkPrivateKey (mkPublicKey 3233 17) 2753 [61; 53].

(** The algorithm named RS256 over each of the two libraries. *)
Definition sample_RS256 : @algRSA sample_crypto :=
  @mkAlgRSA sample_crypto "RS256" tt.

Definition failing_RS256 : @algRSA failing_hash_crypto :=
  @mkAlgRSA failing_hash_crypto "RS256" tt.

(** The signing input [a.b], its signature under [sample_private] in the
    stand-in library, and the bytes of [secret]. *)
Definition sample_input : slice := Some [x61; x2e; x62].
Definition sample_signature : slice := Some [x61; x2e; x62; xa1].
Definition sample_secret : slice := Some [x73; x65; x63; x72; x65; x74].

(** Expired at 50 but not valid before 100: no time is accepted. *)
Definition claims_empty_window : Claims := mkClaims 100 0 50 "" "" "" [].

(** ["username": "kataras"], the claims of the test, and maps to compare
    them with. *)
Definition map_user : gomap := [("username", v_string "kataras")].

Definition map_user_admin : gomap :=
  [("username", v_string "kataras"); ("admin", v_bool true)].

Definition map_admin_user : gomap :=
  [("admin", v_bool true); ("username", v_string "kataras")].

Definition map_other_user : gomap :=
  [("admin", v_bool true); ("username", v_string "makis")].

Definition map_audience : gomap :=
  [("aud", v_slice [v_string "api"]); ("username", v_string "kataras")].

(** [sample_private] with another private exponent. *)
Definition sample_private_other : rsa_PrivateKey :=
  mkPrivateKey (mkPublicKey 3233 17) 413 [61; 53].

Definition sample_RS256_renamed : @algRSA sample_crypto :=
  @mkAlgRSA sample_crypto "RS384" tt.

(** * Properties *)

(** ** Rounding to the second *)

Lemma div_Second (t : Time) : wf t -> div t Second = nsec t.
Proof.
  unfold wf, div, Second. intros Hn.
  rewrite Z.add_comm, Z.mod_add by lia.
  apply Z.mod_small; exact Hn.
Qed.

Lemma Add_back (t : Time) (r : Z) :
  0 <= r < Second -> nsec t = r -> Add t (- r) = at_second (sec t).
Proof.
  unfold Second, Add, at_second. intros Hr Hn.
  rewrite Z.quot_opp_l, Z.rem_opp_l by lia.
  rewrite Z.quot_small, Z.rem_small by lia.
  rewrite Hn.
  replace (r + - r) with 0 by lia. simpl.
  f_equal; lia.
Qed.

Lemma Add_forth (t : Time) (r : Z) :
  0 < r < Second -> nsec t = r -> Add t (Second - r) = at_second (sec t + 1).
Proof.
  unfold Second, Add, at_second. intros Hr Hn.
  rewrite Z.quot_small, Z.rem_small by lia.
  rewrite Hn.
  replace (r + (1000000000 - r)) with 1000000000 by lia. simpl.
  f_equal.
Qed.

(** [Round] to the second keeps the second when less than half of it has
    passed and moves to the next one otherwise. *)
Lemma Round_Second (t : Time) :
  wf t ->
  Round t Second =
  at_second (if nsec t + nsec t <? Second then sec t else sec t + 1).
Proof.
  intros Hwf. unfold Round.
  change (Second <=? 0) with false. cbv iota.
  rewrite (div_Second t Hwf). unfold lessThanHalf.
  destruct (nsec t + nsec t <? Second) eqn:Hhalf.
  - apply Add_back; [exact Hwf | reflexivity].
  - apply Z.ltb_ge in Hhalf. apply Add_forth; [|reflexivity].
    unfold wf, Second in *. lia.
Qed.

(** [Truncate] to the second always keeps the second. *)
Lemma Truncate_Second (t : Time) :
  wf t -> Truncate t Second = at_second (sec t).
Proof.
  intros Hwf. unfold Truncate.
  change (Second <=? 0) with false. cbv iota.
  rewrite (div_Second t Hwf).
  apply Add_back; [exact Hwf | reflexivity].
Qed.

Lemma wf_at_second (s : Z) : wf (at_second s).
Proof. unfold wf, at_second, Second; simpl; lia. Qed.

Lemma now_at_second (s : Z) : Unix (Round (at_second s) Second) = s.
Proof. rewrite Round_Second by apply wf_at_second. reflexivity. Qed.


(** ** The validator and its rules *)

Lemma validateClaims_rules (t : Time) (c : Claims) :
  validateClaims t c = validate_at (Unix (Round t Second)) c.
Proof.
  unfold validateClaims, validate_at, temporal_rules, first_violated,
    not_before_violated, issued_at_violated, expiry_violated, first_error.
  destruct (0 <? NotBefore c), (Unix (Round t Second) <? NotBefore c),
    (0 <? IssuedAt c), (Unix (Round t Second) <? IssuedAt c),
    (0 <? Expiry c), (Expiry c <? Unix (Round t Second)); reflexivity.
Qed.

Lemma validateClaims_at_second (s : Z) (c : Claims) :
  validateClaims (at_second s) c = validate_at s c.
Proof. rewrite validateClaims_rules, now_at_second. reflexivity. Qed.

Lemma validate_at_cases (now : Z) (c : Claims) :
  validate_at now c =
  if not_before_violated now c then Some ErrNotValidYet
  else if issued_at_violated now c then Some ErrIssuedInTheFuture
  else if expiry_violated now c then Some ErrExpired
  else None.
Proof. reflexivity. Qed.

(** C1: with [Expiry = T > 0], validating at second [T] succeeds and at
    [T+1] fails with [ErrExpired]; with [NotBefore = T > 0], validating at
    [T-1] fails with [ErrNotValidYet] and at [T] succeeds; each time provided
    no other rule is violated at that second (nothing can precede the
    not-before failure, which is checked first). *)
Theorem validateClaims_temporal_boundaries (c : Claims) (T : Z) (HT : 0 < T) :
  (Expiry c = T ->
     (not_before_violated T c = false -> issued_at_violated T c = false ->
      validateClaims (at_second T) c = None) /\
     (not_before_violated (T + 1) c = false ->
      issued_at_violated (T + 1) c = false ->
      validateClaims (at_second (T + 1)) c = Some ErrExpired)) /\
  (NotBefore c = T ->
     validateClaims (at_second (T - 1)) c = Some ErrNotValidYet /\
     (issued_at_violated T c = false -> expiry_violated T c = false ->
      validateClaims (at_second T) c = None)).
Proof.
  split; intros HcT.
  - split; intros Hnbf Hiat;
      rewrite validateClaims_at_second, validate_at_cases, Hnbf, Hiat;
      unfold expiry_violated; rewrite HcT.
    + rewrite Z.ltb_irrefl, andb_false_r. reflexivity.
    + replace (0 <? T) with true by (symmetry; apply Z.ltb_lt; lia).
      replace (T <? T + 1) with true by (symmetry; apply Z.ltb_lt; lia).
      reflexivity.
  - split.
    + rewrite validateClaims_at_second, validate_at_cases.
      unfold not_before_violated. rewrite HcT.
      replace (0 <? T) with true by (symmetry; apply Z.ltb_lt; lia).
      replace (T - 1 <? T) with true by (symmetry; apply Z.ltb_lt; lia).
      reflexivity.
    + intros Hiat Hexp.
      rewrite validateClaims_at_second, validate_at_cases, Hiat, Hexp.
      unfold not_before_violated. rewrite HcT.
      rewrite Z.ltb_irrefl, andb_false_r. reflexivity.
Qed.

Lemma validateClaims_temporal_boundaries_witness :
  (validateClaims (at_second 100) claims_window = None /\
   validateClaims (at_second 101) claims_window = Some ErrExpired) /\
  (validateClaims (at_second 99) claims_nbf100 = Some ErrNotValidYet /\
   validateClaims (at_second 100) claims_nbf100 = None).
Proof.
  destruct (validateClaims_temporal_boundaries claims_window 100 eq_refl)
    as [Hexp _].
  destruct (validateClaims_temporal_boundaries claims_nbf100 100 eq_refl)
    as [_ Hnbf].
  destruct (Hexp eq_refl) as [Hat Hafter].
  destruct (Hnbf eq_refl) as [Hbefore Hfrom].
  split; split.
  - exact (Hat eq_refl eq_refl).
  - exact (Hafter eq_refl eq_refl).
  - exact Hbefore.
  - exact (Hfrom eq_refl eq_refl).
Defined.




(** C3: the rules are tried in the order not-before, issued-at, expiry and
    the error is that of the first one violated; so a violated not-before
    wins over a violated expiry, and, not-before holding, a violated
    issued-at wins over a violated expiry. *)
Theorem validateClaims_first_violation (t : Time) (c : Claims) :
  validateClaims t c
  = first_violated temporal_rules (Unix (Round t Second)) c /\
  (not_before_violated (Unix (Round t Second)) c = true ->
   expiry_violated (Unix (Round t Second)) c = true ->
   validateClaims t c = Some ErrNotValidYet) /\
  (not_before_violated (Unix (Round t Second)) c = false ->
   issued_at_violated (Unix (Round t Second)) c = true ->
   expiry_violated (Unix (Round t Second)) c = true ->
   validateClaims t c = Some ErrIssuedInTheFuture).
Proof.
  split; [apply validateClaims_rules|].
  split.
  - intros Hnbf _. rewrite validateClaims_rules, validate_at_cases, Hnbf.
    reflexivity.
  - intros Hnbf Hiat _.
    rewrite validateClaims_rules, validate_at_cases, Hnbf, Hiat.
    reflexivity.
Qed.

Lemma validateClaims_first_violation_witness :
  validateClaims (at_second 70) claims_inverted = Some ErrNotValidYet /\
  validateClaims (at_second 70) claims_iat_exp = Some ErrIssuedInTheFuture.
Proof.
  split.
  - apply (validateClaims_first_violation (at_second 70) claims_inverted);
      reflexivity.
  - apply (validateClaims_first_violation (at_second 70) claims_iat_exp);
      reflexivity.
Defined.

(** C4: claims whose [NotBefore], [IssuedAt] and [Expiry] are all zero pass
    validation at every time. *)
Theorem validateClaims_zero_dates (t : Time) (c : Claims) :
  NotBefore c = 0 -> IssuedAt c = 0 -> Expiry c = 0 ->
  validateClaims t c = None.
Proof.
  intros Hnbf Hiat Hexp. unfold validateClaims.
  rewrite Hnbf, Hiat, Hexp. reflexivity.
Qed.

Lemma validateClaims_zero_dates_witness :
  validateClaims (mkTime (-5) 999999999) claims_undated = None.
Proof.
  apply (validateClaims_zero_dates (mkTime (-5) 999999999) claims_undated);
    reflexivity.
Defined.

(** C10: the result depends on the time and the three dates only: claims
    that agree on [NotBefore], [IssuedAt] and [Expiry] validate alike,
    whatever their [ID], [Issuer], [Subject] and [Audience]. *)
Theorem validateClaims_dates_only (t : Time) (c1 c2 : Claims) :
  NotBefore c1 = NotBefore c2 ->
  IssuedAt c1 = IssuedAt c2 ->
  Expiry c1 = Expiry c2 ->
  validateClaims t c1 = validateClaims t c2.
Proof.
  intros Hnbf Hiat Hexp. unfold validateClaims.
  rewrite Hnbf, Hiat, Hexp. reflexivity.
Qed.

Lemma validateClaims_dates_only_witness :
  validateClaims (at_second 101) claims_window
  = validateClaims (at_second 101) claims_window_named.
Proof.
  apply (validateClaims_dates_only (at_second 101)
           claims_window claims_window_named); reflexivity.
Defined.

(** ** Merge *)

Lemma subslice_drop_last (l : list byte) (x : byte) :
  subslice (Some (l ++ [x])) 0 (len (Some (l ++ [x])) - 1) = Returns (Some l).
Proof.
  unfold subslice, len. rewrite length_app. simpl List.length.
  replace (Z.of_nat (List.length l + 1) - 1) with (Z.of_nat (List.length l))
    by lia.
  replace ((0 <=? 0) && (0 <=? Z.of_nat (List.length l))
           && (Z.of_nat (List.length l) <=? Z.of_nat (List.length l + 1)))
    with true.
  - rewrite Z.sub_0_r, Nat2Z.id. simpl skipn.
    rewrite firstn_app, firstn_all, Nat.sub_diag. simpl.
    rewrite app_nil_r. reflexivity.
  - symmetry. rewrite !andb_true_iff, !Z.leb_le. lia.
Qed.

Lemma subslice_drop_first (x : byte) (l : list byte) :
  subslice (Some (x :: l)) 1 (len (Some (x :: l))) = Returns (Some l).
Proof.
  unfold subslice, len. simpl List.length.
  replace ((0 <=? 1) && (1 <=? Z.of_nat (S (List.length l)))
           && (Z.of_nat (S (List.length l)) <=? Z.of_nat (S (List.length l))))
    with true.
  - replace (Z.to_nat (Z.of_nat (S (List.length l)) - 1))
      with (List.length l) by lia.
    change (Z.to_nat 1) with 1%nat. simpl skipn.
    rewrite firstn_all. reflexivity.
  - symmetry. rewrite !andb_true_iff, !Z.leb_le. lia.
Qed.

Section Merge_properties.

Variable Value : Type.
Variable Marshal : Value -> slice * goerror.

(** X9: a secondary encoding of length zero, [nil] or not: the primary
    encoding is returned as it is, whatever it is, [nil] included. *)
Lemma Merge_zero_length (claims other : Value) (claimsB otherB : slice) :
  Marshal claims = (claimsB, None) ->
  Marshal other = (otherB, None) ->
  len otherB = 0 ->
  Merge Marshal claims other = Returns claimsB.
Proof.
  intros Hc Ho Hlen. unfold Merge. rewrite Hc, Ho, Hlen. reflexivity.
Qed.

(** Any two encodings that are not empty are spliced: the first without
    its last byte, a comma, the second without its first byte. *)
Lemma Merge_splice (claims other : Value) (l m : list byte) (x y : byte) :
  Marshal claims = (Some (l ++ [x]), None) ->
  Marshal other = (Some (y :: m), None) ->
  Merge Marshal claims other = Returns (Some (l ++ [comma] ++ m)).
Proof.
  intros Hc Ho. unfold Merge. rewrite Hc, Ho.
  replace (len (Some (y :: m)) =? 0) with false
    by (symmetry; apply Z.eqb_neq; unfold len; simpl List.length; lia).
  rewrite subslice_drop_last. unfold bind.
  rewrite subslice_drop_first. unfold append.
  rewrite <- app_assoc. reflexivity.
Qed.

(** An empty primary encoding makes the slice expression panic. *)
Lemma Merge_empty_primary_panics (claims other : Value) (m : list byte)
    (y : byte) :
  Marshal claims = (Some [], None) ->
  Marshal other = (Some (y :: m), None) ->
  Merge Marshal claims other = Panics.
Proof.
  intros Hc Ho. unfold Merge. rewrite Hc, Ho.
  replace (len (Some (y :: m)) =? 0) with false
    by (symmetry; apply Z.eqb_neq; unfold len; simpl List.length; lia).
  reflexivity.
Qed.

(** C7: when both encodings are JSON objects, an opening brace, a body
    and a closing brace, [Merge] returns the primary one without its
    closing brace, a comma, and the secondary one without its opening
    brace; both bodies are kept whole, whatever keys they hold. *)
Theorem Merge_joins_objects (claims other : Value)
    (cbody obody : list byte) :
  Marshal claims = (Some (lbrace :: cbody ++ [rbrace]), None) ->
  Marshal other = (Some (lbrace :: obody ++ [rbrace]), None) ->
  Merge Marshal claims other
  = Returns (Some ((lbrace :: cbody) ++ [comma] ++ (obody ++ [rbrace]))).
Proof.
  intros Hc Ho.
  apply (Merge_splice claims other (lbrace :: cbody) (obody ++ [rbrace])
           rbrace lbrace); assumption.
Qed.

End Merge_properties.

Lemma Merge_joins_objects_witness :
  Merge sample_Marshal sample_map sample_issuer_Claims
  = Returns (Some json_map_issuer).
Proof.
  apply (Merge_joins_objects sample_value sample_Marshal
           sample_map sample_issuer_Claims
           [x22; x61; x22; x3a; x31]
           [x22; x69; x73; x73; x22; x3a; x22; x78; x22]);
    reflexivity.
Defined.

(** C6 at [Merge(map[string]interface{}{"a": 1}, Claims{})]: the zero
    [Claims] encodes as [{}], two bytes, so the length test does not hold
    and the result is [{"a":1,}], not the primary encoding [{"a":1}]. *)
Theorem Merge_empty_object_secondary :
  sample_Marshal sample_zero_Claims = (Some json_empty_object, None) /\
  Merge sample_Marshal sample_map sample_zero_Claims
  = Returns (Some json_map_dangling) /\
  Merge sample_Marshal sample_map sample_zero_Claims
  <> Returns (fst (sample_Marshal sample_map)).
Proof.
  split; [reflexivity|].
  split; [reflexivity|].
  vm_compute. intros H. discriminate H.
Qed.

(** C8, as stated, fails for [Merge]: two encoders failing with different
    errors leave the caller with the same [nil] result. *)
Lemma Merge_reports_marshal_errors_counterexample :
  ~ Merge_reports_marshal_errors.
Proof.
  intros [err_of H].
  pose proof (H sample_value sample_Marshal sample_chan sample_map
                (ErrLib "json: unsupported type: chan int")
                (or_introl eq_refl)) as Hchan.
  pose proof (H sample_value sample_Marshal sample_func sample_map
                (ErrLib "json: unsupported type: func()")
                (or_introl eq_refl)) as Hfunc.
  change (Merge sample_Marshal sample_chan sample_map)
    with (@Returns slice None) in Hchan.
  change (Merge sample_Marshal sample_func sample_map)
    with (@Returns slice None) in Hfunc.
  rewrite Hchan in Hfunc. discriminate Hfunc.
Qed.

(** ** The RSA algorithm *)

Section RSA_properties.

Context {C : Crypto}.

Lemma Sign_hashes_then_signs (a : algRSA) (rnd : Rand) (hp : slice)
    (sk : option rsa_PrivateKey) (h0 h1 : hash_state) (err : goerror) :
  hash_New (hasher a) = Returns h0 ->
  hash_Write h0 hp = (h1, err) ->
  Sign a rnd hp (key_rsa_private sk)
  = match err with
    | Some e => Returns (None, Some e)
    | None => SignPKCS1v15 rnd sk (hasher a) (hash_Sum h1)
    end.
Proof.
  intros Hnew Hwrite. unfold Sign. rewrite Hnew. unfold bind.
  rewrite Hwrite. reflexivity.
Qed.

Lemma verify_with_hashes_then_verifies (a : algRSA) (hp sig : slice)
    (pk : option rsa_PublicKey) (h0 h1 : hash_state) (err : goerror) :
  hash_New (hasher a) = Returns h0 ->
  hash_Write h0 hp = (h1, err) ->
  verify_with a hp sig pk
  = match err with
    | Some e => Returns (Some e)
    | None => VerifyPKCS1v15 pk (hasher a) (hash_Sum h1) sig
    end.
Proof.
  intros Hnew Hwrite. unfold verify_with. rewrite Hnew. unfold bind.
  rewrite Hwrite. reflexivity.
Qed.

(** C5: [Sign] returns [ErrInvalidKey], and no signature, for every key
    that is not an RSA private key; [Verify] returns [ErrInvalidKey] for
    every key that is neither an RSA public key nor an RSA private key;
    given an RSA private key, [Verify] checks the signature against the
    public key the private key holds. *)
Theorem rsa_key_family (a : algRSA) (rnd : Rand) (hp sig : slice) (k : key) :
  ((forall p, k <> key_rsa_private p) ->
   Sign a rnd hp k = Returns (None, Some ErrInvalidKey)) /\
  ((forall p, k <> key_rsa_public p) ->
   (forall p, k <> key_rsa_private p) ->
   Verify a hp sig k = Returns (Some ErrInvalidKey)) /\
  (forall (sk : rsa_PrivateKey) (h0 h1 : hash_state),
      k = key_rsa_private (Some sk) ->
      hash_New (hasher a) = Returns h0 ->
      hash_Write h0 hp = (h1, None) ->
      Verify a hp sig k
      = VerifyPKCS1v15 (Some (PublicKey sk)) (hasher a) (hash_Sum h1) sig).
Proof.
  split; [|split].
  - intros Hpriv. destruct k; try reflexivity.
    exfalso. exact (Hpriv p eq_refl).
  - intros Hpub Hpriv. destruct k; try reflexivity.
    + exfalso. exact (Hpub p eq_refl).
    + exfalso. exact (Hpriv p eq_refl).
  - intros sk h0 h1 Hk Hnew Hwrite. subst k. unfold Verify.
    rewrite (verify_with_hashes_then_verifies a hp sig _ h0 h1 None Hnew
               Hwrite).
    reflexivity.
Qed.

(** C9: [Verify] with an RSA private key returns what [Verify] returns
    with the public key inside that private key, for every signing input
    and signature. *)
Theorem Verify_private_as_public (a : algRSA) (hp sig : slice)
    (sk : rsa_PrivateKey) :
  Verify a hp sig (key_rsa_private (Some sk))
  = Verify a hp sig (key_rsa_public (Some (PublicKey sk))).
Proof. reflexivity. Qed.

(** C8, amended: [Sign] and [Verify] return to their caller the error of
    a failed hash write and whatever the signature primitive returns;
    [Merge] has no error result: when serializing either operand fails it
    returns the [nil] slice, whatever the error was. *)
Theorem errors_returned_except_by_Merge
    (Value : Type) (Marshal : Value -> slice * goerror)
    (claims other : Value) (e : error)
    (a : algRSA) (rnd : Rand) (hp sig : slice)
    (sk : option rsa_PrivateKey) (pk : option rsa_PublicKey)
    (h0 h1 : hash_state) (err : goerror) :
  (marshal_fails Marshal claims other e ->
   Merge Marshal claims other = Returns None) /\
  (hash_New (hasher a) = Returns h0 ->
   hash_Write h0 hp = (h1, err) ->
   Sign a rnd hp (key_rsa_private sk)
   = match err with
     | Some e' => Returns (None, Some e')
     | None => SignPKCS1v15 rnd sk (hasher a) (hash_Sum h1)
     end
   /\ Verify a hp sig (key_rsa_public pk)
      = match err with
        | Some e' => Returns (Some e')
        | None => VerifyPKCS1v15 pk (hasher a) (hash_Sum h1) sig
        end).
Proof.
  split.
  - unfold marshal_fails, Merge. intros [Hc | [Hc Ho]].
    + destruct (Marshal claims) as [claimsB errc]. simpl in Hc.
      rewrite Hc. reflexivity.
    + destruct (Marshal claims) as [claimsB errc]. simpl in Hc.
      destruct (Marshal other) as [otherB erro]. simpl in Ho.
      rewrite Hc, Ho. reflexivity.
  - intros Hnew Hwrite. split.
    + apply (Sign_hashes_then_signs a rnd hp sk h0 h1 err Hnew Hwrite).
    + apply (verify_with_hashes_then_verifies a hp sig pk h0 h1 err Hnew
               Hwrite).
Qed.

End RSA_properties.

Lemma rsa_key_family_witness :
  Sign sample_RS256 tt sample_input (key_bytes sample_secret)
  = Returns (None, Some ErrInvalidKey) /\
  Verify sample_RS256 sample_input sample_signature
    (key_other "*ecdsa.PublicKey")
  = Returns (Some ErrInvalidKey) /\
  Verify sample_RS256 sample_input sample_signature
    (key_rsa_private (Some sample_private))
  = Returns None.
Proof.
  split; [|split].
  - apply (rsa_key_family sample_RS256 tt sample_input None
             (key_bytes sample_secret)).
    intros p H. discriminate H.
  - apply (rsa_key_family sample_RS256 tt sample_input sample_signature
             (key_other "*ecdsa.PublicKey"));
      intros p H; discriminate H.
  - destruct (rsa_key_family sample_RS256 tt sample_input sample_signature
                (key_rsa_private (Some sample_private)))
      as [_ [_ Hpriv]].
    rewrite (Hpriv sample_private [] [x61; x2e; x62] eq_refl eq_refl eq_refl).
    reflexivity.
Defined.

Lemma errors_returned_except_by_Merge_witness :
  Merge sample_Marshal sample_map sample_chan = Returns None /\
  Sign failing_RS256 tt sample_input (key_rsa_private (Some sample_private))
  = Returns (None, Some (ErrLib "hash: write failed")) /\
  Verify failing_RS256 sample_input None
    (key_rsa_public (Some (PublicKey sample_private)))
  = Returns (Some (ErrLib "hash: write failed")).
Proof.
  destruct (errors_returned_except_by_Merge
              sample_value sample_Marshal sample_map sample_chan
              (ErrLib "json: unsupported type: chan int")
              failing_RS256 tt sample_input None
              (Some sample_private) (Some (PublicKey sample_private))
              tt tt (Some (ErrLib "hash: write failed")))
    as [Hmerge Hrsa].
  split.
  - apply Hmerge. right. split; reflexivity.
  - exact (Hrsa eq_refl eq_refl).
Defined.

(** * Further properties *)

(** ** The validator over time *)



Lemma validateClaims_now (t : Time) (c : Claims) :
  validateClaims t c = validate_at (now_of t) c.
Proof. apply validateClaims_rules. Qed.

(** The three tests as comparisons of integers. *)
Lemma not_before_violated_iff (now : Z) (c : Claims) :
  not_before_violated now c = true <-> 0 < NotBefore c /\ now < NotBefore c.
Proof.
  unfold not_before_violated. rewrite andb_true_iff, !Z.ltb_lt. reflexivity.
Qed.

Lemma issued_at_violated_iff (now : Z) (c : Claims) :
  issued_at_violated now c = true <-> 0 < IssuedAt c /\ now < IssuedAt c.
Proof.
  unfold issued_at_violated. rewrite andb_true_iff, !Z.ltb_lt. reflexivity.
Qed.

Lemma expiry_violated_iff (now : Z) (c : Claims) :
  expiry_violated now c = true <-> 0 < Expiry c /\ Expiry c < now.
Proof.
  unfold expiry_violated. rewrite andb_true_iff, !Z.ltb_lt. reflexivity.
Qed.

Ltac split_rules now c :=
  destruct (not_before_violated now c) eqn:?Hnbf;
  destruct (issued_at_violated now c) eqn:?Hiat;
  destruct (expiry_violated now c) eqn:?Hexp.

Lemma validate_at_accepts_iff (now : Z) (c : Claims) :
  validate_at now c = None <->
  (NotBefore c <= 0 \/ NotBefore c <= now) /\
  (IssuedAt c <= 0 \/ IssuedAt c <= now) /\
  (Expiry c <= 0 \/ now <= Expiry c).
Proof.
  rewrite validate_at_cases.
  pose proof (not_before_violated_iff now c) as Hn.
  pose proof (issued_at_violated_iff now c) as Hi.
  pose proof (expiry_violated_iff now c) as He.
  split.
  - split_rules now c; try discriminate; intros _.
    assert (Hn' : ~ (0 < NotBefore c /\ now < NotBefore c))
      by (intros Hv; apply Hn in Hv; discriminate Hv).
    assert (Hi' : ~ (0 < IssuedAt c /\ now < IssuedAt c))
      by (intros Hv; apply Hi in Hv; discriminate Hv).
    assert (He' : ~ (0 < Expiry c /\ Expiry c < now))
      by (intros Hv; apply He in Hv; discriminate Hv).
    lia.
  - intros [Hwn [Hwi Hwe]].
    split_rules now c; try reflexivity; exfalso.
    all: try (assert (0 < NotBefore c /\ now < NotBefore c)
                by (apply Hn; reflexivity); lia).
    all: try (assert (0 < IssuedAt c /\ now < IssuedAt c)
                by (apply Hi; reflexivity); lia).
    all: assert (0 < Expiry c /\ Expiry c < now)
           by (apply He; reflexivity); lia.
Qed.

Lemma validate_at_error_cause (now : Z) (c : Claims) (e : error) :
  validate_at now c = Some e ->
  (e = ErrNotValidYet /\ 0 < NotBefore c /\ now < NotBefore c) \/
  (e = ErrIssuedInTheFuture /\ ~ (0 < NotBefore c /\ now < NotBefore c) /\
   0 < IssuedAt c /\ now < IssuedAt c) \/
  (e = ErrExpired /\ ~ (0 < NotBefore c /\ now < NotBefore c) /\
   ~ (0 < IssuedAt c /\ now < IssuedAt c) /\
   0 < Expiry c /\ Expiry c < now).
Proof.
  rewrite validate_at_cases.
  pose proof (not_before_violated_iff now c) as Hn.
  pose proof (issued_at_violated_iff now c) as Hi.
  pose proof (expiry_violated_iff now c) as He.
  assert (Hfalse : forall P : Prop, (false = true <-> P) -> ~ P)
    by (intros P HP HPt; apply HP in HPt; discriminate HPt).
  split_rules now c; intros H; inversion H; subst e.
  all: try (left; split; [reflexivity|]; apply Hn; reflexivity).
  all: try (right; left; split; [reflexivity|];
            split; [apply Hfalse; exact Hn | apply Hi; reflexivity]).
  right; right; split; [reflexivity|].
  split; [apply Hfalse; exact Hn|].
  split; [apply Hfalse; exact Hi | apply He; reflexivity].
Qed.



(** X1: [validateClaims] accepts exactly when the rounded current time
    lies in the window the asserted dates leave: at or after [NotBefore]
    and [IssuedAt], at or before [Expiry], a date that is not positive
    setting no bound. *)
Theorem validateClaims_accepts_iff (t : Time) (c : Claims) :
  validateClaims t c = None <->
  (NotBefore c <= 0 \/ NotBefore c <= now_of t) /\
  (IssuedAt c <= 0 \/ IssuedAt c <= now_of t) /\
  (Expiry c <= 0 \/ now_of t <= Expiry c).
Proof. rewrite validateClaims_now. apply validate_at_accepts_iff. Qed.

(** X2: an error of [validateClaims] is one of its three sentinels, and
    the date it names is asserted and on the wrong side of the rounded
    current time; [ErrInvalidKey] and library errors never come out. *)
Theorem validateClaims_error_cause (t : Time) (c : Claims) (e : error) :
  validateClaims t c = Some e ->
  (e = ErrNotValidYet /\ 0 < NotBefore c /\ now_of t < NotBefore c) \/
  (e = ErrIssuedInTheFuture /\ 0 < IssuedAt c /\ now_of t < IssuedAt c) \/
  (e = ErrExpired /\ 0 < Expiry c /\ Expiry c < now_of t).
Proof.
  rewrite validateClaims_now. intros H.
  destruct (validate_at_error_cause _ _ _ H)
    as [[He Hc] | [[He [_ Hc]] | [He [_ [_ Hc]]]]].
  - left. split; assumption.
  - right; left. split; assumption.
  - right; right. split; assumption.
Qed.

Lemma validateClaims_error_cause_witness :
  (ErrExpired = ErrNotValidYet /\
   0 < NotBefore claims_exp10 /\
   now_of (mkTime 10 500000000) < NotBefore claims_exp10) \/
  (ErrExpired = ErrIssuedInTheFuture /\
   0 < IssuedAt claims_exp10 /\
   now_of (mkTime 10 500000000) < IssuedAt claims_exp10) \/
  (ErrExpired = ErrExpired /\
   0 < Expiry claims_exp10 /\
   Expiry claims_exp10 < now_of (mkTime 10 500000000)).
Proof.
  apply (validateClaims_error_cause (mkTime 10 500000000) claims_exp10
           ErrExpired).
  reflexivity.
Defined.







(** X6: only positive dates count: a date that is zero or negative (a
    time at or before the epoch) is never enforced, so replacing every
    such date by zero changes no result. *)
Theorem validateClaims_ignores_non_positive (t : Time) (c : Claims) :
  validateClaims t (normalize c) = validateClaims t c.
Proof.
  rewrite !validateClaims_now. generalize (now_of t) as now. intros now.
  rewrite !validate_at_cases.
  unfold not_before_violated, issued_at_violated, expiry_violated, normalize.
  simpl. unfold asserted.
  destruct (0 <? NotBefore c) eqn:En, (0 <? IssuedAt c) eqn:Ei,
    (0 <? Expiry c) eqn:Ee; rewrite ?En, ?Ei, ?Ee; simpl; reflexivity.
Qed.

(** X7: [validateClaims] does not check the dates against each other: with
    an asserted expiry before the not-before or the issued-at date, no
    time at all is accepted. *)
Theorem validateClaims_empty_window (t : Time) (c : Claims) :
  0 < Expiry c ->
  Expiry c < NotBefore c \/ Expiry c < IssuedAt c ->
  validateClaims t c <> None.
Proof.
  intros Hexp Hlt. rewrite validateClaims_now, validate_at_accepts_iff. lia.
Qed.

Lemma validateClaims_empty_window_witness :
  validateClaims (at_second 75) claims_empty_window <> None.
Proof.
  apply (validateClaims_empty_window (at_second 75) claims_empty_window).
  - simpl; lia.
  - left; simpl; lia.
Defined.



(** ** Merge on arbitrary encodings *)

Lemma Merge_zero_length_witness :
  Merge table_Marshal (Some json_map, None) (None, None)
  = Returns (Some json_map) /\
  Merge table_Marshal (None, None) (Some [], None) = Returns None.
Proof.
  split.
  - apply (Merge_zero_length (slice * goerror) table_Marshal
             (Some json_map, None) (None, None) (Some json_map) None);
      reflexivity.
  - apply (Merge_zero_length (slice * goerror) table_Marshal
             (None, None) (Some [], None) None (Some []));
      reflexivity.
Defined.

(** A slice of positive length is a list with a last element, and one
    with a first element. *)
Lemma positive_len_last (s : slice) :
  0 < len s -> exists l x, s = Some (l ++ [x]).
Proof.
  destruct s as [l|]; simpl; [|lia].
  intros Hlen. destruct (exists_last (l := l)) as [l' [x Hl]].
  - intros ->. simpl in Hlen. lia.
  - exists l', x. rewrite Hl. reflexivity.
Qed.

Lemma positive_len_first (s : slice) :
  0 < len s -> exists y m, s = Some (y :: m).
Proof.
  destruct s as [[|y m]|]; simpl; try lia.
  intros _. exists y, m. reflexivity.
Qed.

Lemma len_nonneg (s : slice) : 0 <= len s.
Proof. destruct s; simpl; lia. Qed.

Lemma subslice_short_panics (s : slice) :
  len s = 0 -> subslice s 0 (len s - 1) = Panics.
Proof. intros Hlen. unfold subslice. rewrite Hlen. reflexivity. Qed.

Section Merge_further.

Variable Value : Type.
Variable Marshal : Value -> slice * goerror.

(** X10: [Merge] panics in exactly one situation: both operands
    serialize without error, the secondary encoding is not empty and the
    primary encoding is empty (or [nil]), which [claimsB[0:len(claimsB)-1]]
    cannot slice. *)
Theorem Merge_panics_iff (claims other : Value) :
  Merge Marshal claims other = Panics <->
  snd (Marshal claims) = None /\ snd (Marshal other) = None /\
  len (fst (Marshal other)) <> 0 /\ len (fst (Marshal claims)) = 0.
Proof.
  unfold Merge.
  destruct (Marshal claims) as [cb [ec|]], (Marshal other) as [ob [eo|]];
    simpl.
  - split; [discriminate | intros [H _]; discriminate H].
  - split; [discriminate | intros [H _]; discriminate H].
  - split; [discriminate | intros [_ [H _]]; discriminate H].
  - destruct (len ob =? 0) eqn:Eob.
    + apply Z.eqb_eq in Eob.
      split; [discriminate | intros [_ [_ [H _]]]; contradiction].
    + apply Z.eqb_neq in Eob. pose proof (len_nonneg cb) as Hcb.
      destruct (Z.eq_dec (len cb) 0) as [Hz | Hnz].
      * rewrite (subslice_short_panics cb Hz). simpl.
        split; [intros _; repeat split; assumption | reflexivity].
      * destruct (positive_len_last cb) as [l [x ->]]; [lia|].
        pose proof (len_nonneg ob) as Hob.
        destruct (positive_len_first ob) as [y [m ->]]; [lia|].
        rewrite subslice_drop_last. unfold bind.
        rewrite subslice_drop_first.
        split; [discriminate | intros [_ [_ [_ H]]]; contradiction].
Qed.

(** X11: when both operands serialize to encodings that are not empty,
    [Merge] returns a slice, never [nil], one byte shorter than the two
    encodings together. *)
Theorem Merge_length (claims other : Value) (claimsB otherB : slice) :
  Marshal claims = (claimsB, None) ->
  Marshal other = (otherB, None) ->
  0 < len claimsB -> 0 < len otherB ->
  exists raw : list byte,
    Merge Marshal claims other = Returns (Some raw) /\
    len (Some raw) = len claimsB + len otherB - 1.
Proof.
  intros Hc Ho Hlc Hlo.
  destruct (positive_len_last claimsB Hlc) as [l [x ->]].
  destruct (positive_len_first otherB Hlo) as [y [m ->]].
  exists (l ++ [comma] ++ m). split.
  - apply (Merge_splice Value Marshal claims other l m x y); assumption.
  - unfold len. rewrite !length_app. simpl List.length. lia.
Qed.

(** X12: [Merge] never looks at the two bytes it drops: encodings that
    differ only in the last byte of the primary or the first byte of the
    secondary, braces or not, merge to the same bytes. *)
Theorem Merge_ignores_dropped_bytes (c1 c2 o1 o2 : Value) (l m : list byte)
    (x1 x2 y1 y2 : byte) :
  Marshal c1 = (Some (l ++ [x1]), None) ->
  Marshal c2 = (Some (l ++ [x2]), None) ->
  Marshal o1 = (Some (y1 :: m), None) ->
  Marshal o2 = (Some (y2 :: m), None) ->
  Merge Marshal c1 o1 = Merge Marshal c2 o2.
Proof.
  intros Hc1 Hc2 Ho1 Ho2.
  rewrite (Merge_splice Value Marshal c1 o1 l m x1 y1 Hc1 Ho1).
  rewrite (Merge_splice Value Marshal c2 o2 l m x2 y2 Hc2 Ho2).
  reflexivity.
Qed.

End Merge_further.

Lemma Merge_length_witness :
  exists raw : list byte,
    Merge sample_Marshal sample_map sample_issuer_Claims = Returns (Some raw)
    /\ len (Some raw) = len (Some json_map) + len (Some json_issuer) - 1.
Proof.
  apply (Merge_length sample_value sample_Marshal sample_map
           sample_issuer_Claims (Some json_map) (Some json_issuer)).
  - reflexivity.
  - reflexivity.
  - simpl; lia.
  - simpl; lia.
Defined.

(** An operand ending in a bracket, and one starting with a bracket,
    merge as the operands with braces there do. *)
Lemma Merge_ignores_dropped_bytes_witness :
  Merge table_Marshal (Some [x7b; x31; x7d], None)
    (Some [x7b; x32; x7d], None)
  = Merge table_Marshal (Some [x7b; x31; x5d], None)
      (Some [x5b; x32; x7d], None).
Proof.
  apply (Merge_ignores_dropped_bytes (slice * goerror) table_Marshal
           (Some [x7b; x31; x7d], None) (Some [x7b; x31; x5d], None)
           (Some [x7b; x32; x7d], None) (Some [x5b; x32; x7d], None)
           [x7b; x31] [x32; x7d] x7d x5d x7b x5b);
    reflexivity.
Defined.

(** ** Signing and verifying together *)

Lemma sample_crypto_sound : primitive_sound (C := sample_crypto).
Proof.
  intros rnd sk h hashed sig Hsign. simpl in *.
  inversion Hsign; subst sig. unfold bytes_eqb.
  destruct (list_eq_dec byte_eq_dec _ _) as [_ | Hne];
    [reflexivity | exfalso; apply Hne; reflexivity].
Qed.

Section RSA_further.

Context {C : Crypto}.

(** X13: [Sign] and [Verify] hash the same input with the same hash: if
    the library's check accepts the library's signatures, a signature
    [Sign] returns without error for a private key is accepted by [Verify]
    for the same input, given that key's public key or the private key
    itself. *)
Theorem Sign_then_Verify (a : algRSA) (rnd : Rand) (hp sig : slice)
    (sk : rsa_PrivateKey) :
  primitive_sound ->
  Sign a rnd hp (key_rsa_private (Some sk)) = Returns (sig, None) ->
  Verify a hp sig (key_rsa_public (Some (PublicKey sk))) = Returns None /\
  Verify a hp sig (key_rsa_private (Some sk)) = Returns None.
Proof.
  intros Hsound. unfold Sign, Verify, verify_with.
  destruct (hash_New (hasher a)) as [h0|]; simpl; [|discriminate].
  destruct (hash_Write h0 hp) as [h1 [e|]]; [discriminate|].
  intros Hsign. apply Hsound in Hsign. split; exact Hsign.
Qed.

(** X14: [Verify] uses nothing of a private key but its public key: two
    private keys holding the same public key, whatever their private
    exponents and primes, verify alike. *)
Theorem Verify_ignores_private_part (a : algRSA) (hp sig : slice)
    (sk1 sk2 : rsa_PrivateKey) :
  PublicKey sk1 = PublicKey sk2 ->
  Verify a hp sig (key_rsa_private (Some sk1))
  = Verify a hp sig (key_rsa_private (Some sk2)).
Proof. intros Hpk. unfold Verify. rewrite Hpk. reflexivity. Qed.

(** X15: the name of the algorithm takes no part in signing or
    verifying: two [algRSA] values with the same hash sign and verify
    alike, under every key. *)
Theorem rsa_name_irrelevant (a1 a2 : algRSA) (rnd : Rand) (hp sig : slice)
    (k : key) :
  hasher a1 = hasher a2 ->
  Sign a1 rnd hp k = Sign a2 rnd hp k /\
  Verify a1 hp sig k = Verify a2 hp sig k.
Proof.
  intros Hh. unfold Sign, Verify, verify_with. rewrite Hh.
  split; reflexivity.
Qed.

End RSA_further.

Lemma Sign_then_Verify_witness :
  Verify sample_RS256 sample_input sample_signature
    (key_rsa_public (Some (PublicKey sample_private))) = Returns None /\
  Verify sample_RS256 sample_input sample_signature
    (key_rsa_private (Some sample_private)) = Returns None.
Proof.
  apply (Sign_then_Verify sample_RS256 tt sample_input sample_signature
           sample_private).
  - exact sample_crypto_sound.
  - reflexivity.
Defined.

Lemma Verify_ignores_private_part_witness :
  Verify sample_RS256 sample_input sample_signature
    (key_rsa_private (Some sample_private))
  = Verify sample_RS256 sample_input sample_signature
      (key_rsa_private (Some sample_private_other)).
Proof.
  apply (Verify_ignores_private_part sample_RS256 sample_input
           sample_signature sample_private sample_private_other).
  reflexivity.
Defined.

Lemma rsa_name_irrelevant_witness :
  Sign sample_RS256 tt sample_input (key_rsa_private (Some sample_private))
  = Sign sample_RS256_renamed tt sample_input
      (key_rsa_private (Some sample_private)) /\
  Verify sample_RS256 sample_input sample_signature
    (key_rsa_private (Some sample_private))
  = Verify sample_RS256_renamed sample_input sample_signature
      (key_rsa_private (Some sample_private)).
Proof.
  apply (rsa_name_irrelevant sample_RS256 sample_RS256_renamed tt
           sample_input sample_signature
           (key_rsa_private (Some sample_private))).
  reflexivity.
Defined.

(** ** [compareMap] *)

(** A comparison with a comparable value on the left never panics. *)
Lemma iface_neq_comparable (v val : value) :
  comparable v = true -> exists b, iface_neq v val = Returns b.
Proof.
  destruct v, val; simpl; intros Hc; try discriminate Hc; eauto.
Qed.

(** The loop over comparable entries: it returns, and it returns [true]
    exactly when every entry is matched. *)
Lemma compare_entries_comparable (entries m2 : gomap) :
  all_comparable entries ->
  exists b, compare_entries entries m2 = Returns b /\
            (b = true <-> Forall (matched m2) entries).
Proof.
  induction 1 as [|[k v] rest Hv _ IH].
  - exists true. split; [reflexivity|]. split; [constructor | reflexivity].
  - simpl in Hv. simpl compare_entries.
    destruct (map_get m2 k) as [val|] eqn:Hget.
    + destruct (iface_neq_comparable v val Hv) as [differ Hd].
      rewrite Hd. unfold bind. destruct differ.
      * exists false. split; [reflexivity|].
        split; [discriminate|]. intros Hall. inversion Hall as [|? ? Hm _].
        destruct Hm as [val' [Hget' Heq]]. simpl in Hget', Heq.
        rewrite Hget in Hget'. inversion Hget'; subst val'.
        unfold go_equal in Heq. rewrite Hd in Heq. discriminate Heq.
      * destruct IH as [b [Hb Hiff]]. exists b. split; [exact Hb|].
        rewrite Hiff. split.
        -- intros Hall. constructor; [|exact Hall].
           exists val. split; assumption.
        -- intros Hall. inversion Hall; assumption.
    + exists false. split; [reflexivity|].
      split; [discriminate|]. intros Hall. inversion Hall as [|? ? Hm _].
      destruct Hm as [val' [Hget' _]]. simpl in Hget'.
      rewrite Hget in Hget'. discriminate Hget'.
Qed.

(** X16: on a first map whose values are all of comparable types,
    [compareMap] never panics, and it answers [true] exactly when the two
    maps have as many entries and every entry of the first has, under its
    key in the second, a value that [==] finds equal. *)
Theorem compareMap_comparable (m1 m2 : gomap) :
  all_comparable m1 ->
  exists b, compareMap m1 m2 = Returns b /\
            (b = true <->
             List.length m1 = List.length m2 /\ Forall (matched m2) m1).
Proof.
  intros Hc. unfold compareMap.
  destruct (Nat.eqb (List.length m1) (List.length m2)) eqn:Hlen; simpl.
  - apply Nat.eqb_eq in Hlen.
    destruct (compare_entries_comparable m1 m2 Hc) as [b [Hb Hiff]].
    exists b. split; [exact Hb|]. rewrite Hiff. tauto.
  - apply Nat.eqb_neq in Hlen. exists false. split; [reflexivity|].
    split; [discriminate | intros [Heq _]; contradiction].
Qed.

Lemma compareMap_comparable_witness :
  exists b, compareMap map_user_admin map_admin_user = Returns b /\
            (b = true <->
             List.length map_user_admin = List.length map_admin_user /\
             Forall (matched map_admin_user) map_user_admin).
Proof.
  apply (compareMap_comparable map_user_admin map_admin_user).
  repeat constructor.
Defined.

(** X17: with comparable values in the first map, the order in which
    [range] visits its entries does not change the result. *)
Theorem compareMap_order_irrelevant (m1 m1' m2 : gomap) :
  all_comparable m1 -> Permutation m1 m1' ->
  compareMap m1' m2 = compareMap m1 m2.
Proof.
  intros Hc Hperm.
  assert (Hc' : all_comparable m1')
    by (exact (Permutation_Forall Hperm Hc)).
  unfold compareMap. rewrite <- (Permutation_length Hperm).
  destruct (negb (Nat.eqb (List.length m1) (List.length m2)));
    [reflexivity|].
  destruct (compare_entries_comparable m1 m2 Hc) as [b [Hb Hiff]].
  destruct (compare_entries_comparable m1' m2 Hc') as [b' [Hb' Hiff']].
  rewrite Hb, Hb'. f_equal.
  destruct b, b'; try reflexivity.
  - apply (proj2 Hiff').
    apply (Permutation_Forall Hperm). apply (proj1 Hiff). reflexivity.
  - symmetry. apply (proj2 Hiff).
    apply (Permutation_Forall (Permutation_sym Hperm)).
    apply (proj1 Hiff'). reflexivity.
Qed.

Lemma compareMap_order_irrelevant_witness :
  compareMap map_admin_user map_other_user
  = compareMap map_user_admin map_other_user.
Proof.
  apply (compareMap_order_irrelevant map_user_admin map_admin_user
           map_other_user).
  - repeat constructor.
  - apply perm_swap.
Defined.

(** Entries that are all matched are compared to the end. *)
Lemma compare_entries_matched (entries m2 : gomap) :
  Forall (matched m2) entries -> compare_entries entries m2 = Returns true.
Proof.
  induction 1 as [|[k v] rest [val [Hget Heq]] _ IH]; [reflexivity|].
  simpl in Hget, Heq. simpl. rewrite Hget.
  unfold go_equal in Heq. rewrite Heq. exact IH.
Qed.

(** In a map without a repeated key, an entry is what its key gets. *)
Lemma map_get_In (m : gomap) (k : string) (v : value) :
  map_wf m -> In (k, v) m -> map_get m k = Some v.
Proof.
  unfold map_wf, map_keys. induction m as [|[k' v'] rest IH]; simpl.
  - intros _ [].
  - intros Hnd Hin. inversion Hnd as [|? ? Hnotin Hrest]; subst.
    destruct Hin as [Heq | Hin].
    + inversion Heq; subst. rewrite String.eqb_refl. reflexivity.
    + destruct (String.eqb k k') eqn:Ek.
      * apply String.eqb_eq in Ek. subst k'. exfalso. apply Hnotin.
        change k with (fst (k, v)). apply in_map. exact Hin.
      * apply IH; assumption.
Qed.

(** X18: a map compares equal to itself when each of its values is equal
    to itself under [==], which holds for [nil], booleans, strings and
    every number but NaN, and fails for slices and maps. *)
Theorem compareMap_reflexive (m : gomap) :
  map_wf m ->
  Forall (fun entry => go_equal (snd entry) (snd entry)) m ->
  compareMap m m = Returns true.
Proof.
  intros Hwf Hself. unfold compareMap. rewrite Nat.eqb_refl. simpl.
  apply compare_entries_matched.
  apply Forall_forall. intros [k v] Hin.
  exists v. split.
  - apply map_get_In; assumption.
  - exact (proj1 (Forall_forall _ m) Hself (k, v) Hin).
Qed.

Lemma compareMap_reflexive_witness :
  compareMap map_user_admin map_user_admin = Returns true.
Proof.
  apply (compareMap_reflexive map_user_admin).
  - unfold map_wf. simpl. repeat constructor; simpl.
    + intros [H | []]. discriminate H.
    + intros [].
  - repeat constructor.
Defined.

(** X19: [compareMap] panics when the walk, after entries that are all
    matched, reaches a key under which both maps hold a slice, or both
    hold a map: [v != val] cannot compare them. *)
Theorem compareMap_panics_on_uncomparable (before after m2 : gomap)
    (k : string) (v val : value) :
  List.length (before ++ (k, v) :: after) = List.length m2 ->
  Forall (matched m2) before ->
  map_get m2 k = Some val ->
  (exists a b, v = v_slice a /\ val = v_slice b) \/
  (exists a b, v = v_map a /\ val = v_map b) ->
  compareMap (before ++ (k, v) :: after) m2 = Panics.
Proof.
  intros Hlen Hbefore Hget Hkind. unfold compareMap.
  rewrite Hlen, Nat.eqb_refl. simpl. clear Hlen.
  induction Hbefore as [|[k0 v0] rest [val0 [Hget0 Heq0]] _ IH].
  - simpl. rewrite Hget.
    destruct Hkind as [[a [b [-> ->]]] | [a [b [-> ->]]]]; reflexivity.
  - simpl in Hget0, Heq0. simpl. rewrite Hget0.
    unfold go_equal in Heq0. rewrite Heq0. exact IH.
Qed.

Lemma compareMap_panics_on_uncomparable_witness :
  compareMap ([("username", v_string "kataras")]
              ++ ("aud", v_slice [v_string "api"]) :: [])
    map_audience = Panics.
Proof.
  apply (compareMap_panics_on_uncomparable
           [("username", v_string "kataras")] [] map_audience
           "aud" (v_slice [v_string "api"]) (v_slice [v_string "api"])).
  - reflexivity.
  - repeat constructor. exists (v_string "kataras"). split; reflexivity.
  - reflexivity.
  - left. exists [v_string "api"], [v_string "api"]. split; reflexivity.
Defined.

(** X20: with a slice under one key in both maps and a mismatch under
    another key, what [compareMap] does depends on which entry [range]
    visits first: the slice first, it panics; the mismatch first, it
    returns [false]. *)
Theorem compareMap_order_matters (k1 k2 : string) (a b : list value)
    (v : value) (rest m2 : gomap) :
  List.length ((k1, v_slice a) :: (k2, v) :: rest) = List.length m2 ->
  map_get m2 k1 = Some (v_slice b) ->
  map_get m2 k2 = None \/
  (exists val, map_get m2 k2 = Some val /\ iface_neq v val = Returns true) ->
  compareMap ((k1, v_slice a) :: (k2, v) :: rest) m2 = Panics /\
  compareMap ((k2, v) :: (k1, v_slice a) :: rest) m2 = Returns false.
Proof.
  intros Hlen Hget1 Hmis.
  assert (Hlen' : List.length ((k2, v) :: (k1, v_slice a) :: rest)
                  = List.length m2) by exact Hlen.
  unfold compareMap. rewrite Hlen', Hlen, Nat.eqb_refl. simpl.
  rewrite Hget1. split; [reflexivity|].
  destruct Hmis as [Hnone | [val [Hget2 Hne]]].
  - rewrite Hnone. reflexivity.
  - rewrite Hget2, Hne. reflexivity.
Qed.

Lemma compareMap_order_matters_witness :
  compareMap map_audience
    [("aud", v_slice [v_string "api"]); ("username", v_string "makis")]
  = Panics /\
  compareMap [("username", v_string "kataras");
              ("aud", v_slice [v_string "api"])]
    [("aud", v_slice [v_string "api"]); ("username", v_string "makis")]
  = Returns false.
Proof.
  apply (compareMap_order_matters "aud" "username" [v_string "api"]
           [v_string "api"] (v_string "kataras") []
           [("aud", v_slice [v_string "api"]);
            ("username", v_string "makis")]).
  - reflexivity.
  - reflexivity.
  - right. exists (v_string "makis"). split; reflexivity.
Defined.
